(** * Locale registry of [src/i18n/constants.ts]

    A shallow embedding of the i18n constants module and the proofs of the
    properties its specification states.  Strings are byte strings holding
    the UTF-8 encoding of the TypeScript literals; [===] on two strings is
    equality of their contents, which the encoding preserves. *)

From Stdlib Require Import ZArith Ascii String List Sorted Permutation Lia.
From stdpp Require Import base option list strings gmap.

Local Open Scope Z_scope.

(** ** JavaScript values and completions *)

(** The values an expression of this module can evaluate to: [undefined], a
    string, or one of the built-in objects reachable through
    [Object.prototype] (named by the property under which it is found). *)
Inductive Value : Type :=
  | VUndefined
  | VString (s : string)
  | VBuiltin (name : string).

(** [ToBoolean]: [undefined] and the empty string are falsy, every object is
    truthy. *)
Definition ToBoolean (v : Value) : bool :=
  match v with
  | VUndefined => false
  | VString s => negb (s =? EmptyString)%string
  | VBuiltin _ => true
  end.

(** [a || b] *)
Definition logical_or (a b : Value) : Value :=
  if ToBoolean a then a else b.

(** An optional string field ([flag?: string]) read as a value. *)
Definition of_optional (o : option string) : Value :=
  match o with
  | Some s => VString s
  | None => VUndefined
  end.

(** [ToString] of an optional string field, as a template literal applies
    it. *)
Definition ToString (o : option string) : string :=
  match o with
  | Some s => s
  | None => "undefined"
  end.

(** A call either returns normally or throws. *)
Inductive JSError : Type :=
  | TypeError.

Inductive Completion (A : Type) : Type :=
  | Normal (a : A)
  | Throw (e : JSError).

Arguments Normal {A} a.
Arguments Throw {A} e.

#[global] Instance Completion_ret : MRet Completion := fun _ a => Normal a.

#[global] Instance Completion_bind : MBind Completion := fun _ _ k c =>
  match c with
  | Normal a => k a
  | Throw e => Throw e
  end.

(** ** The registry *)

(** [interface LocaleInfo] *)
Record LocaleInfo : Type := mkLocaleInfo {
  code : string;
  name : string;
  englishName : string;
  flag : option string;
}.

#[global] Instance LocaleInfo_eq_dec : EqDecision LocaleInfo.
Proof. solve_decision. Defined.

Definition SUPPORTED_LOCALES : list LocaleInfo := [
  mkLocaleInfo "en" "English" "English" (Some "🇺🇸");
  mkLocaleInfo "zh-CN" "简体中文" "Simplified Chinese" (Some "🇨🇳");
  mkLocaleInfo "zh-TW" "繁體中文" "Traditional Chinese" (Some "🇹🇼");
  mkLocaleInfo "ja" "日本語" "Japanese" (Some "🇯🇵");
  mkLocaleInfo "ko" "한국어" "Korean" (Some "🇰🇷");
  mkLocaleInfo "de" "Deutsch" "German" (Some "🇩🇪");
  mkLocaleInfo "fr" "Français" "French" (Some "🇫🇷");
  mkLocaleInfo "es" "Español" "Spanish" (Some "🇪🇸");
  mkLocaleInfo "ru" "Русский" "Russian" (Some "🇷🇺");
  mkLocaleInfo "pt" "Português" "Portuguese" (Some "🇧🇷")
].

Definition DEFAULT_LOCALE : string := "en".

(** [SUPPORTED_LOCALES.find(locale => locale.code === code)] *)
Definition getLocaleInfo (code0 : string) : option LocaleInfo :=
  List.find (fun locale => (code locale =? code0)%string) SUPPORTED_LOCALES.

(** [SUPPORTED_LOCALES.some(locale => locale.code === code)] *)
Definition isValidLocaleCode (code0 : string) : bool :=
  existsb (fun locale => (code locale =? code0)%string) SUPPORTED_LOCALES.

(** The codes of the registry, in its order. *)
Definition registry_codes : list string := List.map code SUPPORTED_LOCALES.

(** Reading a property of a value of type [LocaleInfo | undefined]: on
    [undefined] the access throws a [TypeError]. *)
Definition get {A : Type} (info : option LocaleInfo) (field : LocaleInfo -> A)
  : Completion A :=
  match info with
  | Some i => Normal (field i)
  | None => Throw TypeError
  end.

(** [ToBoolean] of a value of type [LocaleInfo | undefined]. *)
Definition is_object (info : option LocaleInfo) : bool :=
  match info with
  | Some _ => true
  | None => false
  end.

(** The registry is an exported array of records whose flag is optional
    ([flag?: string]).  The lookup and the display string are written first
    for whatever records the array holds; [getLocaleInfo] above is
    [getLocaleInfo_in SUPPORTED_LOCALES]. *)
Definition getLocaleInfo_in (registry : list LocaleInfo) (code0 : string)
  : option LocaleInfo :=
  List.find (fun locale => (code locale =? code0)%string) registry.

(** The body of [getLocaleDisplayString(code, includeFlag = true)]; the
    second argument is [None] when the caller leaves it out. *)
Definition getLocaleDisplayString_in (registry : list LocaleInfo)
    (code0 : string) (includeFlag : option bool) : Completion string :=
  let includeFlag := default true includeFlag in
  let info := getLocaleInfo_in registry code0 in
  if negb (is_object info) then Normal code0
  else
    cond ← (if includeFlag
            then f ← get info flag; mret (ToBoolean (of_optional f))
            else mret false);
    if (cond : bool)
    then f ← get info flag; n ← get info name; e ← get info englishName;
         mret (ToString f +:+ " " +:+ n +:+ " (" +:+ e +:+ ")")
    else n ← get info name; e ← get info englishName;
         mret (n +:+ " (" +:+ e +:+ ")").

(** [getLocaleDisplayString], on the registry of the module. *)
Definition getLocaleDisplayString (code0 : string) (includeFlag : option bool)
  : Completion string :=
  getLocaleDisplayString_in SUPPORTED_LOCALES code0 includeFlag.

(** The two shapes of a display string. *)
Definition with_flag (f : string) (info : LocaleInfo) : string :=
  f +:+ " " +:+ name info +:+ " (" +:+ englishName info +:+ ")".

Definition without_flag (info : LocaleInfo) : string :=
  name info +:+ " (" +:+ englishName info +:+ ")".


(** ** Arrays in the heap

    [getLocalesForDropdown] copies the registry and sorts the copy in place,
    so arrays are modelled as cells of a heap addressed by index.  The module
    allocates the registry when it is loaded. *)
Abbreviation Ref := nat (only parsing).
Abbreviation Heap := (list (list LocaleInfo)) (only parsing).

Definition SUPPORTED_LOCALES_ref : Ref := 0%nat.
Definition module_heap : Heap := [SUPPORTED_LOCALES].

(** [[...a]]: a fresh array with the elements of [a]. *)
Definition spread (a : Ref) (h : Heap) : option (Ref * Heap) :=
  elems ← h !! a;
  Some (List.length h, h ++ [elems]).

(** The order [Array.prototype.sort] produces for a consistent comparator:
    [x] goes after [y] only when [comparefn(x, y) > 0], and elements that
    compare equal keep their order of appearance. *)
Fixpoint sort_insert {A : Type} (comparefn : A -> A -> Z) (x : A) (l : list A)
  : list A :=
  match l with
  | [] => [x]
  | y :: l' =>
      if 0 <? comparefn x y then y :: sort_insert comparefn x l' else x :: l
  end.

Definition sorted_elements {A : Type} (comparefn : A -> A -> Z) (l : list A)
  : list A :=
  foldr (sort_insert comparefn) [] l.

(** [a] may stand before [b] in an array sorted by [comparefn]. *)
Definition ascending {A : Type} (comparefn : A -> A -> Z) (a b : A) : Prop :=
  comparefn a b <= 0.

(** [a.sort(comparefn)]: sorts the array in place and returns it. *)
Definition Array_sort (comparefn : LocaleInfo -> LocaleInfo -> Z) (a : Ref)
    (h : Heap) : option (Ref * Heap) :=
  elems ← h !! a;
  Some (a, <[a := sorted_elements comparefn elems]> h).

Section Dropdown.
(** [String.prototype.localeCompare] belongs to the host; it is a
    parameter of the model. *)
Variable localeCompare : string -> string -> Z.

(** [(a, b) => a.englishName.localeCompare(b.englishName)] *)
Definition byEnglishName (a b : LocaleInfo) : Z :=
  localeCompare (englishName a) (englishName b).

Definition getLocalesForDropdown (h : Heap) : option (Ref * Heap) :=
  '(copy, h1) ← spread SUPPORTED_LOCALES_ref h;
  Array_sort byEnglishName copy h1.

(** [n] calls whose results are dropped, then one more call; the result
    is the reference that last call returns. *)
Fixpoint call_getLocalesForDropdown (n : nat) (h : Heap)
  : option (Ref * Heap) :=
  match n with
  | O => getLocalesForDropdown h
  | S n' =>
      '(_, h1) ← getLocalesForDropdown h;
      call_getLocalesForDropdown n' h1
  end.
End Dropdown.

(** Comparison of the encoded strings byte by byte: one consistent
    comparator, with which the model can be run. *)
Definition compareBytes (a b : string) : Z :=
  match String.compare a b with
  | Lt => -1
  | Eq => 0
  | Gt => 1
  end.

(** ** Grouping tables *)

(** An object literal whose properties are enumerated: the properties in
    the order they are written. *)
Definition LANGUAGE_FAMILIES : list (string * list string) := [
  ("GERMANIC", ["en"; "de"]);
  ("ROMANCE", ["fr"; "es"; "pt"]);
  ("SLAVIC", ["ru"]);
  ("ASIAN", ["zh-CN"; "zh-TW"; "ja"; "ko"])
].

Definition LOCALE_REGIONS : list (string * string) := [
  ("en", "AMERICA");
  ("zh-CN", "ASIA");
  ("zh-TW", "ASIA");
  ("ja", "ASIA");
  ("ko", "ASIA");
  ("de", "EUROPE");
  ("fr", "EUROPE");
  ("es", "AMERICA");
  ("ru", "EUROPE");
  ("pt", "AMERICA")
].

(** [a.includes(x)] on an array of strings. *)
Definition includes (a : list string) (x : string) : bool :=
  existsb (fun y => (y =? x)%string) a.

Definition isRTL (locale : string) : bool :=
  let rtlLocales : list string := [] in
  includes rtlLocales locale.

(** ** Property lookup on an object literal *)

(** The properties every object literal inherits from [Object.prototype]
    (ECMA-262, 20.1.3 and B.2.2); each holds a built-in function, and
    [__proto__] yields the prototype object itself. *)
Definition Object_prototype : list string := [
  "constructor"; "hasOwnProperty"; "isPrototypeOf"; "propertyIsEnumerable";
  "toLocaleString"; "toString"; "valueOf"; "__proto__";
  "__defineGetter__"; "__defineSetter__";
  "__lookupGetter__"; "__lookupSetter__"
].

(** [obj[key]] for an object literal with own string-valued properties
    [own]: an own property first, then the prototype, else [undefined]. *)
Definition Object_get (own : gmap string string) (key : string) : Value :=
  match own !! key with
  | Some s => VString s
  | None =>
      if bool_decide (key ∈ Object_prototype) then VBuiltin key
      else VUndefined
  end.

(** A double quote, and a family name written between double quotes. *)
Definition dquote : string := String "034"%char EmptyString.
Definition quoted (family : string) : string := dquote +:+ family +:+ dquote.

Definition latin_fonts : string :=
  "ui-sans-serif, system-ui, -apple-system, BlinkMacSystemFont".

Definition cjk_fonts (first second : string) : string :=
  "system-ui, -apple-system, " +:+ quoted first +:+ ", " +:+ quoted second
  +:+ ", sans-serif".

(** The [fontMap] literal of [getFontFamily]; its keys are distinct. *)
Definition fontMap : gmap string string :=
  list_to_map [
    ("en", latin_fonts);
    ("zh-CN", cjk_fonts "Microsoft YaHei" "PingFang SC");
    ("zh-TW", cjk_fonts "Microsoft JhengHei" "PingFang TC");
    ("ja", cjk_fonts "Hiragino Sans" "Yu Gothic");
    ("ko", cjk_fonts "Apple SD Gothic Neo" "Noto Sans KR");
    ("de", latin_fonts);
    ("fr", latin_fonts);
    ("es", latin_fonts);
    ("ru", latin_fonts);
    ("pt", latin_fonts)
  ].

(** [fontMap[locale] || fontMap['en']] *)
Definition getFontFamily (locale : string) : Value :=
  logical_or (Object_get fontMap locale) (Object_get fontMap "en").

(** ** Locale groups *)

Definition ALL : list string := List.map code SUPPORTED_LOCALES.
Definition ASIAN : list string := ["zh-CN"; "zh-TW"; "ja"; "ko"].
Definition EUROPEAN : list string := ["de"; "fr"; "ru"; "pt"].
Definition ENGLISH_BASED : list string := ["en"].
Definition SPANISH_PORTUGUESE : list string := ["es"; "pt"].

(** [Object.entries(LOCALE_GROUPS)]: none of the keys is an array index, so
    the entries come in the order in which the literal declares them. *)
Definition LOCALE_GROUPS : list (string * list string) := [
  ("ALL", ALL);
  ("ASIAN", ASIAN);
  ("EUROPEAN", EUROPEAN);
  ("ENGLISH_BASED", ENGLISH_BASED);
  ("SPANISH_PORTUGUESE", SPANISH_PORTUGUESE)
].

(** The [for ... of] loop of [getLocaleGroup] over the entries that are
    left: [Some locales] when an iteration returns, [None] when the loop
    runs to its end. *)
Fixpoint first_group (entries : list (string * list string)) (locale : string)
  : option (list string) :=
  match entries with
  | [] => None
  | (_, locales) :: rest =>
      if includes locales locale then Some locales
      else first_group rest locale
  end.

Definition getLocaleGroup_of (groups : list (string * list string))
    (locale : string) : list string :=
  match first_group groups locale with
  | Some locales => locales
  | None => [locale]
  end.

Definition getLocaleGroup (locale : string) : list string :=
  getLocaleGroup_of LOCALE_GROUPS locale.

(** ** Common translation keys *)

(** The [COMMON_KEYS] literal: property names and the keys they stand for,
    in the order of the source. *)
Definition COMMON_KEYS : list (string * string) := [
  ("SAVE", "common.save");
  ("CANCEL", "common.cancel");
  ("DELETE", "common.delete");
  ("EDIT", "common.edit");
  ("ADD", "common.add");
  ("REMOVE", "common.remove");
  ("LOADING", "common.loading");
  ("ERROR", "common.error");
  ("SUCCESS", "common.success");
  ("WARNING", "common.warning");
  ("SETTINGS", "common.settings");
  ("ADVANCED", "common.advanced");
  ("ENABLED", "common.enabled");
  ("DISABLED", "common.disabled");
  ("CONFIRM", "common.confirm");
  ("CLEAR", "common.clear");
  ("RESET", "common.reset")
].

(** Lower case of an ASCII string, to relate a property name to its key. *)
Definition lower_ascii (c : ascii) : ascii :=
  let n := nat_of_ascii c in
  if (65 <=? n)%nat && (n <=? 90)%nat then ascii_of_nat (n + 32) else c.

Fixpoint lowercase (s : string) : string :=
  match s with
  | EmptyString => EmptyString
  | String c s' => String (lower_ascii c) (lowercase s')
  end.

(** Equality of completions is decidable. *)
#[global] Instance JSError_eq_dec : EqDecision JSError.
Proof. solve_decision. Defined.

#[global] Instance Completion_eq_dec {A : Type} `{EqDecision A} :
  EqDecision (Completion A).
Proof. solve_decision. Defined.

(** ** Sequences of calls and comparators *)

(** [n] calls of [getLocalesForDropdown] in a row, keeping the reference
    each of them returns. *)
Fixpoint dropdown_calls (localeCompare : string -> string -> Z) (n : nat)
    (h : Heap) : option (list Ref * Heap) :=
  match n with
  | O => Some ([], h)
  | S n' =>
      '(r, h1) ← getLocalesForDropdown localeCompare h;
      '(rs, h2) ← dropdown_calls localeCompare n' h1;
      Some (r :: rs, h2)
  end.

(** What ECMA-262 asks of a comparator for [sort] to have a defined result:
    swapping the arguments swaps the sign, and the order is transitive. *)
Definition consistent {A : Type} (comparefn : A -> A -> Z) : Prop :=
  (forall a b, 0 < comparefn a b -> comparefn b a < 0)
  /\ (forall a b, comparefn a b < 0 -> 0 < comparefn b a)
  /\ (forall a b c, comparefn a b <= 0 -> comparefn b c <= 0 ->
                    comparefn a c <= 0).

(** [a] must stand before [b]. *)
Definition strictly_ascending {A : Type} (comparefn : A -> A -> Z) (a b : A)
  : Prop :=
  comparefn a b < 0.

(** * Properties *)

(** Closed decidable statements are settled by evaluation. *)
Ltac by_evaluation := refine (bool_decide_unpack _ _); vm_compute; exact I.

(** ** Array methods *)

Section ArrayMethods.
Context {A : Type}.
Implicit Types (p : A -> bool) (l : list A).

Lemma find_None_Forall p l :
  List.find p l = None <-> Forall (fun x => p x = false) l.
Proof.
  induction l as [|x l IH]; simpl.
  - split; [constructor | reflexivity].
  - destruct (p x) eqn:Hx.
    + split; [discriminate | intros H; inversion H; congruence].
    + rewrite IH. split; [constructor; assumption | intros H; inversion H; assumption].
Qed.

Lemma find_Some_elem p l x : List.find p l = Some x -> x ∈ l /\ p x = true.
Proof.
  intros H. apply find_some in H as [Hin Hp].
  split; [apply list_elem_of_In; exact Hin | exact Hp].
Qed.

Lemma existsb_false_Forall p l :
  existsb p l = false <-> Forall (fun x => p x = false) l.
Proof.
  induction l as [|x l IH]; simpl.
  - split; [constructor | reflexivity].
  - rewrite orb_false_iff, IH.
    split; [intros [? ?]; constructor; assumption | intros H; inversion H; auto].
Qed.
End ArrayMethods.

Lemma includes_elem_of (a : list string) (x : string) :
  includes a x = true <-> x ∈ a.
Proof.
  unfold includes. rewrite existsb_exists. split.
  - intros (y & Hin & Heq). apply String.eqb_eq in Heq as ->.
    apply list_elem_of_In; exact Hin.
  - intros Hin. exists x. split; [apply list_elem_of_In; exact Hin | apply String.eqb_refl].
Qed.

Lemma includes_not_elem_of (a : list string) (x : string) :
  includes a x = false <-> x ∉ a.
Proof.
  rewrite <- includes_elem_of. destruct (includes a x); split; congruence.
Qed.

(** ** Lookup in the registry *)

Lemma no_record_with_code (c : string) :
  (forall info, info ∈ SUPPORTED_LOCALES -> code info <> c) ->
  Forall (fun locale => (code locale =? c)%string = false) SUPPORTED_LOCALES.
Proof.
  intros Hno. apply Forall_forall. intros info Hin.
  apply String.eqb_neq, Hno, Hin.
Qed.

Lemma getLocaleInfo_Some (c : string) (info : LocaleInfo) :
  getLocaleInfo c = Some info -> info ∈ SUPPORTED_LOCALES /\ code info = c.
Proof.
  intros H. apply find_Some_elem in H as [Hin Heq].
  split; [exact Hin | apply String.eqb_eq; exact Heq].
Qed.

(** Every flag of the registry is a non-empty string, hence truthy. *)
Lemma registry_flags_truthy :
  Forall (fun info => exists f, flag info = Some f /\ ToBoolean (VString f) = true)
         SUPPORTED_LOCALES.
Proof. repeat constructor; eexists; (split; [reflexivity | reflexivity]). Qed.

(** ** The display string over any registry *)

Section DisplayString.
Variable registry : list LocaleInfo.

Lemma getLocaleDisplayString_in_None (c : string) (includeFlag : option bool) :
  getLocaleInfo_in registry c = None ->
  getLocaleDisplayString_in registry c includeFlag = Normal c.
Proof.
  intros Hinfo. unfold getLocaleDisplayString_in. rewrite Hinfo. reflexivity.
Qed.

(** The flag is printed exactly when it is asked for and truthy. *)
Lemma getLocaleDisplayString_in_Some (c : string) (info : LocaleInfo)
    (includeFlag : option bool) :
  getLocaleInfo_in registry c = Some info ->
  getLocaleDisplayString_in registry c includeFlag
  = Normal (if default true includeFlag && ToBoolean (of_optional (flag info))
            then with_flag (ToString (flag info)) info
            else without_flag info).
Proof.
  intros Hinfo. unfold getLocaleDisplayString_in. rewrite Hinfo. simpl.
  destruct (default true includeFlag); simpl; [|reflexivity].
  destruct (ToBoolean (of_optional (flag info))); reflexivity.
Qed.
End DisplayString.

(** C5: the registry holds the ten codes 'en', 'zh-CN', 'zh-TW', 'ja', 'ko',
    'de', 'fr', 'es', 'ru', 'pt' in this order with their native names and
    flags, no code occurs twice, and for every code of the registry
    [getLocaleInfo] returns a record whose [code] is that code. *)
Theorem registry_contents :
  List.map code SUPPORTED_LOCALES
    = ["en"; "zh-CN"; "zh-TW"; "ja"; "ko"; "de"; "fr"; "es"; "ru"; "pt"]
  /\ List.map name SUPPORTED_LOCALES
    = ["English"; "简体中文"; "繁體中文"; "日本語"; "한국어"; "Deutsch";
       "Français"; "Español"; "Русский"; "Português"]
  /\ List.map flag SUPPORTED_LOCALES
    = [Some "🇺🇸"; Some "🇨🇳"; Some "🇹🇼"; Some "🇯🇵"; Some "🇰🇷"; Some "🇩🇪";
       Some "🇫🇷"; Some "🇪🇸"; Some "🇷🇺"; Some "🇧🇷"]
  /\ NoDup (List.map code SUPPORTED_LOCALES)
  /\ Forall (fun c => exists info, getLocaleInfo c = Some info /\ code info = c)
            (List.map code SUPPORTED_LOCALES).
Proof.
  split; [reflexivity|]. split; [reflexivity|]. split; [reflexivity|]. split.
  - by_evaluation.
  - repeat constructor; eexists; (split; [reflexivity | reflexivity]).
Qed.

(** C3: for a code that is the code of no record of the registry,
    [getLocaleInfo] returns [undefined], [getLocaleDisplayString] returns
    the code itself (whatever the flag argument) and [isValidLocaleCode]
    returns false; the display string is a normal completion, not a throw. *)
Theorem unknown_code_degrades (c : string) (includeFlag : option bool) :
  (forall info, info ∈ SUPPORTED_LOCALES -> code info <> c) ->
  getLocaleInfo c = None
  /\ getLocaleDisplayString c includeFlag = Normal c
  /\ isValidLocaleCode c = false.
Proof.
  intros Hno. apply no_record_with_code in Hno.
  assert (Hinfo : getLocaleInfo c = None) by (apply find_None_Forall; exact Hno).
  split; [exact Hinfo|]. split.
  - exact (getLocaleDisplayString_in_None SUPPORTED_LOCALES c includeFlag Hinfo).
  - apply existsb_false_Forall; exact Hno.
Qed.

Lemma unknown_code_degrades_witness :
  getLocaleInfo "xx-unknown" = None
  /\ getLocaleDisplayString "xx-unknown" None = Normal "xx-unknown"
  /\ isValidLocaleCode "xx-unknown" = false.
Proof.
  apply (unknown_code_degrades "xx-unknown" None).
  intros info Hin.
  apply (proj1 (Forall_forall (fun i => code i <> "xx-unknown") SUPPORTED_LOCALES));
    [|exact Hin].
  repeat constructor; discriminate.
Defined.




(** C9: [isRTL] is false for every supported code, and for every other
    input as well, the list of right-to-left locales being empty. *)
Theorem isRTL_false :
  Forall (fun info => isRTL (code info) = false) SUPPORTED_LOCALES
  /\ forall locale : string, isRTL locale = false.
Proof.
  split; [apply Forall_forall; intros; reflexivity | intros; reflexivity].
Qed.

(** ** Locale groups *)

Section FirstGroup.
Variable groups : list (string * list string).

Lemma first_group_Some (locale : string) (bucket : list string) :
  first_group groups locale = Some bucket ->
  exists pre group post,
    groups = pre ++ (group, bucket) :: post
    /\ Forall (fun entry => locale ∉ entry.2) pre
    /\ locale ∈ bucket.
Proof.
  induction groups as [|[group locales] rest IH]; simpl; [discriminate|].
  destruct (includes locales locale) eqn:Hinc.
  - intros [= <-]. exists [], group, rest.
    split; [reflexivity|]. split; [constructor|].
    apply includes_elem_of; exact Hinc.
  - intros Hrest. destruct (IH Hrest) as (pre & g & post & -> & Hpre & Hin).
    exists ((group, locales) :: pre), g, post.
    split; [reflexivity|]. split; [|exact Hin].
    constructor; [apply includes_not_elem_of; exact Hinc | exact Hpre].
Qed.

Lemma first_group_None (locale : string) :
  first_group groups locale = None <->
  Forall (fun entry => locale ∉ entry.2) groups.
Proof.
  induction groups as [|[group locales] rest IH]; simpl.
  - split; [constructor | reflexivity].
  - destruct (includes locales locale) eqn:Hinc.
    + split; [discriminate|].
      intros H. inversion H as [|? ? Hnot _]; subst.
      apply includes_elem_of in Hinc. destruct (Hnot Hinc).
    + rewrite IH. split.
      * intros H. constructor; [apply includes_not_elem_of; exact Hinc | exact H].
      * intros H. inversion H; assumption.
Qed.

Lemma getLocaleGroup_of_first (locale : string) :
  (exists pre group bucket post,
      groups = pre ++ (group, bucket) :: post
      /\ Forall (fun entry => locale ∉ entry.2) pre
      /\ locale ∈ bucket
      /\ getLocaleGroup_of groups locale = bucket)
  \/ (Forall (fun entry => locale ∉ entry.2) groups
      /\ getLocaleGroup_of groups locale = [locale]).
Proof.
  unfold getLocaleGroup_of.
  destruct (first_group groups locale) as [bucket|] eqn:Hfirst.
  - left. destruct (first_group_Some locale bucket Hfirst)
      as (pre & group & post & Heq & Hpre & Hin).
    exists pre, group, bucket, post. auto.
  - right. split; [apply first_group_None; exact Hfirst | reflexivity].
Qed.

Lemma getLocaleGroup_of_elem (locale : string) :
  locale ∈ getLocaleGroup_of groups locale.
Proof.
  destruct (getLocaleGroup_of_first locale)
    as [(pre & group & bucket & post & _ & _ & Hin & ->) | [_ ->]].
  - exact Hin.
  - apply list_elem_of_here.
Qed.
End FirstGroup.

(** C2: [getLocaleGroup] returns the first bucket of the grouping table, in
    the order of its declaration, that contains the code: no bucket declared
    before the returned one contains it.  When no bucket contains the code
    the result is the singleton of the code. *)
Theorem getLocaleGroup_first_bucket (locale : string) :
  (exists pre group bucket post,
      LOCALE_GROUPS = pre ++ (group, bucket) :: post
      /\ Forall (fun entry => locale ∉ entry.2) pre
      /\ locale ∈ bucket
      /\ getLocaleGroup locale = bucket)
  \/ (Forall (fun entry => locale ∉ entry.2) LOCALE_GROUPS
      /\ getLocaleGroup locale = [locale]).
Proof. apply getLocaleGroup_of_first. Qed.

(** 'pt' is in three buckets and resolves to the one declared first. *)
Example getLocaleGroup_pt :
  includes ALL "pt" = true /\ includes EUROPEAN "pt" = true
  /\ includes SPANISH_PORTUGUESE "pt" = true /\ getLocaleGroup "pt" = ALL.
Proof. repeat split. Qed.

(** The bucket of all codes is declared first and covers every other
    bucket, so a call returns either that bucket or the singleton. *)
Lemma getLocaleGroup_ALL_or_singleton (locale : string) :
  getLocaleGroup locale = if includes ALL locale then ALL else [locale].
Proof.
  unfold getLocaleGroup, getLocaleGroup_of, LOCALE_GROUPS.
  cbn [first_group].
  destruct (includes ALL locale) eqn:Hall; [reflexivity|].
  assert (Hsub : forall bucket,
             forallb (includes ALL) bucket = true ->
             includes bucket locale = false).
  { intros bucket Hb. apply includes_not_elem_of. intros Hin.
    rewrite forallb_forall in Hb.
    apply list_elem_of_In, Hb in Hin.
    apply includes_elem_of in Hin.
    apply includes_not_elem_of in Hall. exact (Hall Hin). }
  rewrite !Hsub by reflexivity. reflexivity.
Qed.

(** C10: the list [getLocaleGroup] returns is never empty and contains the
    code it was asked about. *)
Theorem getLocaleGroup_contains_code (locale : string) :
  getLocaleGroup locale <> [] /\ locale ∈ getLocaleGroup locale.
Proof.
  assert (Hin : locale ∈ getLocaleGroup locale)
    by apply getLocaleGroup_of_elem.
  split; [|exact Hin].
  intros Hnil. rewrite Hnil in Hin. apply not_elem_of_nil in Hin. exact Hin.
Qed.

(** C1: the claim asks that [getLocaleGroup('ja')] be the Asian bucket,
    which the table declares and which contains 'ja'.  The code returns the
    bucket of all ten codes instead: that bucket is declared first and
    contains every code, so the loop returns in its first iteration and
    never reaches the bucket the claim names. *)
Theorem getLocaleGroup_ja_not_ASIAN :
  ("ASIAN", ["zh-CN"; "zh-TW"; "ja"; "ko"]) ∈ LOCALE_GROUPS
  /\ includes ["zh-CN"; "zh-TW"; "ja"; "ko"] "ja" = true
  /\ getLocaleGroup "ja"
     = ["en"; "zh-CN"; "zh-TW"; "ja"; "ko"; "de"; "fr"; "es"; "ru"; "pt"]
  /\ getLocaleGroup "ja" <> ["zh-CN"; "zh-TW"; "ja"; "ko"].
Proof.
  split; [apply list_elem_of_further, list_elem_of_here|].
  split; [reflexivity|]. split; [reflexivity | discriminate].
Qed.

(** The rest of C1 holds on the code: a code that no bucket contains, such
    as 'xx-unknown', yields the singleton of that code. *)
Lemma getLocaleGroup_no_bucket (c : string) :
  Forall (fun entry => c ∉ entry.2) LOCALE_GROUPS ->
  getLocaleGroup c = [c].
Proof.
  intros Hnone. unfold getLocaleGroup, getLocaleGroup_of.
  apply first_group_None in Hnone. rewrite Hnone. reflexivity.
Qed.

Lemma not_in_any_group_xx :
  Forall (fun entry : string * list string => "xx-unknown" ∉ entry.2)
         LOCALE_GROUPS.
Proof. apply first_group_None. reflexivity. Qed.

Example getLocaleGroup_xx_unknown :
  getLocaleGroup "xx-unknown" = ["xx-unknown"].
Proof. exact (getLocaleGroup_no_bucket "xx-unknown" not_in_any_group_xx). Qed.

(** ** Referential integrity of the tables *)

Lemma registry_codes_record (c : string) :
  c ∈ registry_codes -> exists info, info ∈ SUPPORTED_LOCALES /\ code info = c.
Proof.
  unfold registry_codes. intros Hin.
  apply list_elem_of_In, in_map_iff in Hin as (info & Hcode & Hin).
  exists info. split; [apply list_elem_of_In; exact Hin | exact Hcode].
Qed.

Lemma bucket_codes_registered (table : list (string * list string)) :
  forallb (fun entry => forallb (includes registry_codes) entry.2) table = true ->
  forall group codes c, (group, codes) ∈ table -> c ∈ codes -> c ∈ registry_codes.
Proof.
  intros Hall group codes c Hentry Hc.
  rewrite forallb_forall in Hall.
  specialize (Hall (group, codes) (proj1 (list_elem_of_In _ _) Hentry)).
  simpl in Hall. rewrite forallb_forall in Hall.
  apply includes_elem_of, Hall, list_elem_of_In, Hc.
Qed.

(** C8: every code that the language-family map, the region map or the
    batch-group map mentions is the code of a record of the registry. *)
Theorem referential_integrity :
  (forall family codes c,
      (family, codes) ∈ LANGUAGE_FAMILIES -> c ∈ codes ->
      exists info, info ∈ SUPPORTED_LOCALES /\ code info = c)
  /\ (forall c region,
      (c, region) ∈ LOCALE_REGIONS ->
      exists info, info ∈ SUPPORTED_LOCALES /\ code info = c)
  /\ (forall group codes c,
      (group, codes) ∈ LOCALE_GROUPS -> c ∈ codes ->
      exists info, info ∈ SUPPORTED_LOCALES /\ code info = c).
Proof.
  split; [|split].
  - intros family codes c Hentry Hc. apply registry_codes_record.
    apply (bucket_codes_registered LANGUAGE_FAMILIES eq_refl family codes c Hentry Hc).
  - intros c region Hentry. apply registry_codes_record.
    assert (Hall : forallb (fun entry : string * string =>
                              includes registry_codes entry.1)
                           LOCALE_REGIONS = true) by reflexivity.
    rewrite forallb_forall in Hall.
    apply includes_elem_of.
    apply (Hall (c, region)), list_elem_of_In, Hentry.
  - intros group codes c Hentry Hc. apply registry_codes_record.
    apply (bucket_codes_registered LOCALE_GROUPS eq_refl group codes c Hentry Hc).
Qed.

Lemma referential_integrity_witness :
  exists info, info ∈ SUPPORTED_LOCALES /\ code info = "pt".
Proof.
  apply (proj2 (proj2 referential_integrity) "SPANISH_PORTUGUESE" ["es"; "pt"] "pt").
  - do 4 apply list_elem_of_further. apply list_elem_of_here.
  - apply list_elem_of_further, list_elem_of_here.
Defined.

(** ** Font families *)

Lemma fontMap_en : Object_get fontMap "en" = VString latin_fonts.
Proof. reflexivity. Qed.

Lemma fontMap_entries_truthy :
  map_Forall (fun _ s => ToBoolean (VString s) = true) fontMap.
Proof. by_evaluation. Qed.

Lemma getFontFamily_truthy (locale : string) :
  ToBoolean (getFontFamily locale) = true.
Proof.
  unfold getFontFamily, logical_or.
  destruct (ToBoolean (Object_get fontMap locale)) eqn:Hown; [exact Hown|].
  rewrite fontMap_en. reflexivity.
Qed.

Lemma getFontFamily_own (locale s : string) :
  fontMap !! locale = Some s -> getFontFamily locale = VString s.
Proof.
  intros Hs. unfold getFontFamily, logical_or, Object_get. rewrite Hs.
  rewrite (fontMap_entries_truthy locale s Hs). reflexivity.
Qed.

Lemma getFontFamily_default : getFontFamily DEFAULT_LOCALE = VString latin_fonts.
Proof. reflexivity. Qed.

(** C6, as the specification states it, fails: 'constructor' has no entry
    in the font table, and the lookup finds the property that the table
    inherits from [Object.prototype], a function object, which is truthy
    and is returned in place of the default locale's fonts. *)
Lemma getFontFamily_constructor_not_default :
  fontMap !! "constructor" = None
  /\ getFontFamily "constructor" <> getFontFamily DEFAULT_LOCALE.
Proof. split; [reflexivity | discriminate]. Qed.

(** C6, amended: [getFontFamily] never returns [undefined] or the empty
    string; for a code with an entry in the font table it returns that
    entry, and the one of 'zh-CN' contains "PingFang SC"; for a code without
    an entry that is not the name of a property inherited from
    [Object.prototype], such as 'xx-unknown', it returns exactly what it
    returns for the default locale. *)
Theorem getFontFamily_fallback :
  (forall locale : string,
      getFontFamily locale <> VUndefined
      /\ getFontFamily locale <> VString EmptyString)
  /\ (forall locale s : string,
      fontMap !! locale = Some s -> getFontFamily locale = VString s)
  /\ (exists before after : string,
      getFontFamily "zh-CN" = VString (before +:+ "PingFang SC" +:+ after))
  /\ (forall locale : string,
      fontMap !! locale = None -> locale ∉ Object_prototype ->
      getFontFamily locale = getFontFamily DEFAULT_LOCALE)
  /\ getFontFamily "xx-unknown" = getFontFamily DEFAULT_LOCALE.
Proof.
  split; [|split; [|split; [|split]]].
  - intros locale. pose proof (getFontFamily_truthy locale) as Ht.
    split; intros Heq; rewrite Heq in Ht; discriminate Ht.
  - exact getFontFamily_own.
  - exists ("system-ui, -apple-system, " +:+ quoted "Microsoft YaHei" +:+ ", "
            +:+ dquote), (dquote +:+ ", sans-serif").
    reflexivity.
  - intros locale Hnone Hproto.
    unfold getFontFamily at 1. unfold logical_or, Object_get. rewrite Hnone.
    rewrite (bool_decide_eq_false_2 _ Hproto). simpl.
    rewrite getFontFamily_default. reflexivity.
  - reflexivity.
Qed.

Lemma getFontFamily_fallback_witness :
  getFontFamily "fr-CA" = getFontFamily DEFAULT_LOCALE.
Proof.
  apply (proj1 (proj2 (proj2 (proj2 getFontFamily_fallback))) "fr-CA").
  - reflexivity.
  - by_evaluation.
Defined.

(** ** Sorting *)

Section SortedElements.
Context {A : Type}.
Variable comparefn : A -> A -> Z.

Lemma sort_insert_Permutation (x : A) (l : list A) :
  Permutation (sort_insert comparefn x l) (x :: l).
Proof.
  induction l as [|y l IH]; simpl; [reflexivity|].
  destruct (0 <? comparefn x y); [|reflexivity].
  rewrite IH. apply perm_swap.
Qed.

Lemma sorted_elements_Permutation (l : list A) :
  Permutation (sorted_elements comparefn l) l.
Proof.
  induction l as [|x l IH]; simpl; [reflexivity|].
  rewrite sort_insert_Permutation. apply perm_skip. exact IH.
Qed.

(** What ECMA-262 asks of a consistent comparator, as far as sorting
    needs it. *)
Hypothesis comparefn_opposite :
  forall a b, 0 < comparefn a b -> comparefn b a <= 0.
Hypothesis comparefn_transitive :
  forall a b c, comparefn a b <= 0 -> comparefn b c <= 0 -> comparefn a c <= 0.

Lemma sort_insert_Forall (P : A -> Prop) (x : A) (l : list A) :
  P x -> Forall P l -> Forall P (sort_insert comparefn x l).
Proof.
  intros Hx Hl. eapply Permutation_Forall; [|exact (Forall_cons_2 P x l Hx Hl)].
  symmetry. apply sort_insert_Permutation.
Qed.

Lemma sort_insert_StronglySorted (x : A) (l : list A) :
  StronglySorted (ascending comparefn) l ->
  StronglySorted (ascending comparefn) (sort_insert comparefn x l).
Proof.
  induction 1 as [|y l Hsorted IH Hy]; simpl.
  - repeat constructor.
  - destruct (0 <? comparefn x y) eqn:Hcmp.
    + apply Z.ltb_lt in Hcmp. constructor; [exact IH|].
      apply sort_insert_Forall; [apply comparefn_opposite; exact Hcmp | exact Hy].
    + apply Z.ltb_ge in Hcmp. constructor; [constructor; assumption|].
      constructor; [exact Hcmp|].
      eapply Forall_impl; [exact Hy|].
      intros z Hz. apply (comparefn_transitive x y z Hcmp Hz).
Qed.

Lemma sorted_elements_StronglySorted (l : list A) :
  StronglySorted (ascending comparefn) (sorted_elements comparefn l).
Proof.
  induction l as [|x l IH]; simpl; [constructor|].
  apply sort_insert_StronglySorted; exact IH.
Qed.
End SortedElements.

(** ** The dropdown list *)

Section DropdownProps.
Variable localeCompare : string -> string -> Z.

Lemma spread_run (a : Ref) (h : Heap) (elems : list LocaleInfo) :
  h !! a = Some elems -> spread a h = Some (List.length h, h ++ [elems]).
Proof. intros Ha. unfold spread. rewrite Ha. reflexivity. Qed.

Lemma Array_sort_last (comparefn : LocaleInfo -> LocaleInfo -> Z)
    (h : Heap) (elems : list LocaleInfo) :
  Array_sort comparefn (List.length h) (h ++ [elems])
  = Some (List.length h, h ++ [sorted_elements comparefn elems]).
Proof.
  unfold Array_sort.
  rewrite lookup_app_r by reflexivity.
  rewrite Nat.sub_diag. cbn [lookup list_lookup mbind option_bind].
  rewrite insert_app_r_alt by reflexivity.
  rewrite Nat.sub_diag. reflexivity.
Qed.

(** A call in a heap whose registry is intact allocates one array, the
    sorted copy, and changes nothing else. *)
Lemma getLocalesForDropdown_run (h : Heap) :
  h !! SUPPORTED_LOCALES_ref = Some SUPPORTED_LOCALES ->
  getLocalesForDropdown localeCompare h
  = Some (List.length h,
          h ++ [sorted_elements (byEnglishName localeCompare) SUPPORTED_LOCALES]).
Proof.
  intros Hreg. unfold getLocalesForDropdown.
  rewrite (spread_run _ _ _ Hreg). cbn [mbind option_bind].
  apply Array_sort_last.
Qed.

Lemma registry_kept (h : Heap) (copy : list LocaleInfo) :
  h !! SUPPORTED_LOCALES_ref = Some SUPPORTED_LOCALES ->
  (h ++ [copy]) !! SUPPORTED_LOCALES_ref = Some SUPPORTED_LOCALES.
Proof. intros Hreg. apply lookup_app_l_Some. exact Hreg. Qed.

Lemma call_getLocalesForDropdown_run (n : nat) (h : Heap) :
  h !! SUPPORTED_LOCALES_ref = Some SUPPORTED_LOCALES ->
  exists r h',
    call_getLocalesForDropdown localeCompare n h = Some (r, h')
    /\ h' !! r = Some (sorted_elements (byEnglishName localeCompare) SUPPORTED_LOCALES)
    /\ r <> SUPPORTED_LOCALES_ref
    /\ h' !! SUPPORTED_LOCALES_ref = Some SUPPORTED_LOCALES.
Proof.
  revert h. induction n as [|n IH]; intros h Hreg; simpl.
  - rewrite (getLocalesForDropdown_run h Hreg).
    eexists _, _. split; [reflexivity|]. split; [|split].
    + rewrite lookup_app_r by reflexivity. rewrite Nat.sub_diag. reflexivity.
    + apply lookup_lt_Some in Hreg. unfold SUPPORTED_LOCALES_ref in *. lia.
    + apply registry_kept; exact Hreg.
  - rewrite (getLocalesForDropdown_run h Hreg). cbn [mbind option_bind].
    apply IH, registry_kept, Hreg.
Qed.
End DropdownProps.

(** C4: whatever the number of earlier calls, [getLocalesForDropdown]
    returns an array, distinct from the registry, that holds the records of
    the registry (a permutation of them), and the registry keeps its
    contents and order; when [localeCompare] is a consistent comparator the
    returned array is in ascending order of [englishName]. *)
Theorem getLocalesForDropdown_sorted_copy
    (localeCompare : string -> string -> Z) (n : nat) :
  exists (r : Ref) (h' : Heap) (result : list LocaleInfo),
    call_getLocalesForDropdown localeCompare n module_heap = Some (r, h')
    /\ h' !! r = Some result
    /\ Permutation result SUPPORTED_LOCALES
    /\ r <> SUPPORTED_LOCALES_ref
    /\ h' !! SUPPORTED_LOCALES_ref = Some SUPPORTED_LOCALES
    /\ ((forall a b, 0 < localeCompare a b -> localeCompare b a <= 0) ->
        (forall a b c, localeCompare a b <= 0 -> localeCompare b c <= 0 ->
                       localeCompare a c <= 0) ->
        StronglySorted
          (fun a b => localeCompare (englishName a) (englishName b) <= 0)
          result).
Proof.
  destruct (call_getLocalesForDropdown_run localeCompare n module_heap eq_refl)
    as (r & h' & Hrun & Hres & Hfresh & Hkept).
  exists r, h', (sorted_elements (byEnglishName localeCompare) SUPPORTED_LOCALES).
  split; [exact Hrun|]. split; [exact Hres|].
  split; [apply sorted_elements_Permutation|].
  split; [exact Hfresh|]. split; [exact Hkept|].
  intros Hopp Htrans.
  apply (sorted_elements_StronglySorted (byEnglishName localeCompare)).
  - intros a b. apply Hopp.
  - intros a b c. apply Htrans.
Qed.

(** Comparison byte by byte is a consistent comparator. *)
Lemma compareBytes_le (a b : string) :
  compareBytes a b <= 0 <-> String.le a b.
Proof.
  unfold compareBytes, String.le, String.leb.
  destruct (String.compare a b); simpl; split; intros H; try exact I; try lia.
Qed.

Lemma compareBytes_opposite (a b : string) :
  0 < compareBytes a b -> compareBytes b a <= 0.
Proof.
  unfold compareBytes. rewrite (String.compare_antisym b a).
  destruct (String.compare a b); simpl; lia.
Qed.

Lemma compareBytes_transitive (a b c : string) :
  compareBytes a b <= 0 -> compareBytes b c <= 0 ->
  compareBytes a c <= 0.
Proof.
  rewrite !compareBytes_le. intros Hab Hbc. transitivity b; assumption.
Qed.

Lemma getLocalesForDropdown_sorted_copy_witness :
  exists (r : Ref) (h' : Heap) (result : list LocaleInfo),
    call_getLocalesForDropdown compareBytes 1 module_heap = Some (r, h')
    /\ h' !! r = Some result
    /\ StronglySorted
         (fun a b => compareBytes (englishName a) (englishName b) <= 0)
         result.
Proof.
  destruct (getLocalesForDropdown_sorted_copy compareBytes 1)
    as (r & h' & result & Hrun & Hres & _ & _ & _ & Hsorted).
  exists r, h', result. split; [exact Hrun|]. split; [exact Hres|].
  apply Hsorted.
  - exact compareBytes_opposite.
  - exact compareBytes_transitive.
Defined.

(** The order of the dropdown when strings compare byte by byte. *)
Example dropdown_codes :
  (call_getLocalesForDropdown compareBytes 0 module_heap
     ≫= fun '(r, h') => List.map code <$> h' !! r)
  = Some ["en"; "fr"; "de"; "ja"; "ko"; "pt"; "ru"; "zh-CN"; "es"; "zh-TW"].
Proof. reflexivity. Qed.

(** * Further properties of the module *)

(** ** Lookup by a key without duplicates *)

Section KeyedLookup.
Context {A : Type}.
Variable key : A -> string.
Implicit Types (l : list A) (x : A) (k : string).

Lemma existsb_find_is_Some (p : A -> bool) l :
  existsb p l = true <-> is_Some (List.find p l).
Proof.
  induction l as [|y l IH]; simpl.
  - split; [discriminate | intros [? [=]]].
  - destruct (p y); simpl; [|exact IH].
    split; [eauto | reflexivity].
Qed.

Lemma existsb_key_elem_of k l :
  existsb (fun y => (key y =? k)%string) l = true <-> k ∈ List.map key l.
Proof.
  rewrite existsb_exists, list_elem_of_In, in_map_iff.
  split; intros (y & H1 & H2); exists y.
  - split; [apply String.eqb_eq; exact H2 | exact H1].
  - split; [exact H2 | apply String.eqb_eq; exact H1].
Qed.

Lemma find_key_NoDup l x :
  NoDup (List.map key l) -> x ∈ l ->
  List.find (fun y => (key y =? key x)%string) l = Some x.
Proof.
  induction l as [|y l IH]; simpl; intros Hnd Hin.
  - apply not_elem_of_nil in Hin. destruct Hin.
  - apply NoDup_cons in Hnd as [Hy Hnd].
    apply elem_of_cons in Hin as [->|Hin].
    + rewrite String.eqb_refl. reflexivity.
    + assert (Hne : key y <> key x).
      { intros Heq. apply Hy. rewrite Heq.
        apply list_elem_of_In, in_map, list_elem_of_In, Hin. }
      apply String.eqb_neq in Hne. rewrite Hne. apply IH; assumption.
Qed.
End KeyedLookup.

Lemma registry_codes_NoDup : NoDup registry_codes.
Proof. by_evaluation. Qed.

Lemma isValidLocaleCode_elem_of (c : string) :
  isValidLocaleCode c = true <-> c ∈ registry_codes.
Proof. apply existsb_key_elem_of. Qed.

(** X1: [isValidLocaleCode] and [getLocaleInfo] agree on every string: the
    first is true exactly when the second finds a record, which is exactly
    when the string is one of the codes of the registry; the default locale
    is such a code. *)
Theorem isValidLocaleCode_agrees :
  (forall c : string,
      (isValidLocaleCode c = true <-> is_Some (getLocaleInfo c))
      /\ (isValidLocaleCode c = true <-> c ∈ registry_codes))
  /\ isValidLocaleCode DEFAULT_LOCALE = true.
Proof.
  split; [|reflexivity].
  intros c. split.
  - apply existsb_find_is_Some.
  - apply isValidLocaleCode_elem_of.
Qed.

(** X2: [getLocaleInfo(c)] returns a record exactly when that record is in
    the registry and carries the code [c]; so looking up the code of a
    record of the registry returns that very record. *)
Theorem getLocaleInfo_iff (c : string) (info : LocaleInfo) :
  getLocaleInfo c = Some info <-> info ∈ SUPPORTED_LOCALES /\ code info = c.
Proof.
  split; [apply getLocaleInfo_Some|].
  intros [Hin <-]. apply (find_key_NoDup code); [exact registry_codes_NoDup | exact Hin].
Qed.

(** ** Display strings *)

Lemma display_string_of_record (c : string) (info : LocaleInfo)
    (includeFlag : option bool) :
  getLocaleInfo c = Some info ->
  exists f,
    flag info = Some f
    /\ getLocaleDisplayString c includeFlag
       = Normal (if default true includeFlag then with_flag f info
                 else without_flag info).
Proof.
  intros Hinfo.
  destruct (getLocaleInfo_Some c info Hinfo) as [Hin _].
  pose proof registry_flags_truthy as Hflags.
  rewrite Forall_forall in Hflags.
  destruct (Hflags info Hin) as (f & Hf & Htruthy).
  exists f. split; [exact Hf|].
  unfold getLocaleDisplayString.
  rewrite (getLocaleDisplayString_in_Some _ c info includeFlag Hinfo).
  rewrite Hf. simpl in Htruthy |- *. rewrite Htruthy.
  destruct (default true includeFlag); reflexivity.
Qed.

Lemma append_not_empty (s1 s2 : string) :
  s2 <> EmptyString -> s1 +:+ s2 <> EmptyString.
Proof. destruct s1; simpl; [auto | discriminate]. Qed.

Lemma registry_codes_not_empty :
  Forall (fun c => c <> EmptyString) registry_codes.
Proof. by_evaluation. Qed.

(** X3: [getLocaleDisplayString] returns normally on every input, and the
    string it returns is empty only when the code passed in is the empty
    string (which is no code of the registry and is handed back as is). *)
Theorem display_string_empty_iff (c : string) (includeFlag : option bool) :
  exists s,
    getLocaleDisplayString c includeFlag = Normal s
    /\ (s = EmptyString <-> c = EmptyString).
Proof.
  destruct (getLocaleInfo c) as [info|] eqn:Hinfo.
  - destruct (display_string_of_record c info includeFlag Hinfo)
      as (f & _ & ->).
    eexists. split; [reflexivity|].
    assert (Hc : c <> EmptyString).
    { pose proof registry_codes_not_empty as Hne.
      rewrite Forall_forall in Hne. apply Hne.
      apply isValidLocaleCode_elem_of, existsb_find_is_Some.
      unfold getLocaleInfo in Hinfo. rewrite Hinfo. eauto. }
    split; [|intros ->; destruct (Hc eq_refl)].
    intros Hempty. exfalso. revert Hempty.
    destruct (default true includeFlag); unfold with_flag, without_flag;
      repeat (apply append_not_empty); discriminate.
  - exists c. split; [|reflexivity].
    exact (getLocaleDisplayString_in_None SUPPORTED_LOCALES c includeFlag Hinfo).
Qed.

Lemma display_strings_distinct_registry :
  Forall (fun c1 =>
    Forall (fun c2 =>
      Forall (fun includeFlag =>
        getLocaleDisplayString c1 includeFlag
        = getLocaleDisplayString c2 includeFlag -> c1 = c2)
        [None; Some true; Some false])
      registry_codes)
    registry_codes.
Proof. by_evaluation. Qed.

(** X4: two different valid codes never share a display string, with or
    without the flag: the labels of a dropdown identify the locales. *)
Theorem display_string_distinct (c1 c2 : string) (includeFlag : option bool) :
  isValidLocaleCode c1 = true ->
  isValidLocaleCode c2 = true ->
  c1 <> c2 ->
  getLocaleDisplayString c1 includeFlag <> getLocaleDisplayString c2 includeFlag.
Proof.
  intros H1%isValidLocaleCode_elem_of H2%isValidLocaleCode_elem_of Hne Heq.
  apply Hne. revert Heq.
  pose proof display_strings_distinct_registry as Hall.
  rewrite Forall_forall in Hall. specialize (Hall c1 H1).
  rewrite Forall_forall in Hall. specialize (Hall c2 H2).
  rewrite Forall_forall in Hall. apply Hall.
  destruct includeFlag as [[|]|];
    repeat first [apply list_elem_of_here | apply list_elem_of_further].
Qed.

Lemma display_string_distinct_witness :
  getLocaleDisplayString "zh-CN" (Some false)
  <> getLocaleDisplayString "zh-TW" (Some false).
Proof.
  apply (display_string_distinct "zh-CN" "zh-TW" (Some false));
    [reflexivity | reflexivity | discriminate].
Defined.

(** ** Groups and validity *)

Lemma includes_ALL_valid (c : string) : includes ALL c = isValidLocaleCode c.
Proof.
  apply eq_true_iff_eq.
  rewrite includes_elem_of, isValidLocaleCode_elem_of. reflexivity.
Qed.

Lemma getLocaleGroup_by_validity (c : string) :
  getLocaleGroup c = if isValidLocaleCode c then ALL else [c].
Proof. rewrite <- includes_ALL_valid. apply getLocaleGroup_ALL_or_singleton. Qed.

Lemma narrower_buckets :
  Forall (fun entry : string * list string =>
            entry.1 <> "ALL" ->
            entry.2 <> ALL
            /\ forall c, entry.2 = [c] -> isValidLocaleCode c = true)
         LOCALE_GROUPS.
Proof.
  unfold LOCALE_GROUPS.
  repeat apply Forall_cons_2; [..|apply Forall_nil_2]; simpl; intros Hgroup.
  - destruct (Hgroup eq_refl).
  - split; [discriminate | intros c [=]].
  - split; [discriminate | intros c [=]].
  - split; [discriminate | intros c [= <-]; reflexivity].
  - split; [discriminate | intros c [=]].
Qed.

(** X5: [getLocaleGroup] returns the bucket of all codes for every valid
    code and the singleton of the code for every other string; none of the
    buckets declared after the first is ever returned. *)
Theorem getLocaleGroup_never_narrow :
  (forall c : string,
      getLocaleGroup c = if isValidLocaleCode c then ALL else [c])
  /\ (forall (c group : string) (bucket : list string),
        (group, bucket) ∈ LOCALE_GROUPS -> group <> "ALL" ->
        getLocaleGroup c <> bucket).
Proof.
  split; [exact getLocaleGroup_by_validity|].
  intros c group bucket Hentry Hgroup.
  pose proof narrower_buckets as Hall. rewrite Forall_forall in Hall.
  destruct (Hall (group, bucket) Hentry Hgroup) as [HnotALL Hsingle].
  simpl in HnotALL, Hsingle.
  rewrite getLocaleGroup_by_validity.
  destruct (isValidLocaleCode c) eqn:Hvalid.
  - intros Heq. apply HnotALL. symmetry. exact Heq.
  - intros Heq. symmetry in Heq. apply Hsingle in Heq. congruence.
Qed.

Lemma getLocaleGroup_never_narrow_witness :
  getLocaleGroup "ja" <> ASIAN.
Proof.
  apply (proj2 getLocaleGroup_never_narrow "ja" "ASIAN" ASIAN).
  - apply list_elem_of_further, list_elem_of_here.
  - discriminate.
Defined.

(** X6: every member of the list returned for a code gets the same list:
    the results of [getLocaleGroup] split the strings into classes. *)
Theorem getLocaleGroup_members (c d : string) :
  d ∈ getLocaleGroup c -> getLocaleGroup d = getLocaleGroup c.
Proof.
  rewrite (getLocaleGroup_by_validity c), (getLocaleGroup_by_validity d).
  destruct (isValidLocaleCode c) eqn:Hc.
  - intros Hd. apply includes_elem_of in Hd. rewrite includes_ALL_valid in Hd.
    rewrite Hd. reflexivity.
  - intros Hd. apply list_elem_of_singleton in Hd as ->. rewrite Hc. reflexivity.
Qed.

Lemma getLocaleGroup_members_witness :
  getLocaleGroup "ko" = getLocaleGroup "ja".
Proof.
  apply (getLocaleGroup_members "ja" "ko").
  do 4 apply list_elem_of_further. apply list_elem_of_here.
Defined.

(** ** Font table *)

Lemma fontMap_entries :
  map_Forall (fun k s =>
      isValidLocaleCode k = true
      /\ (k ∉ Object_prototype)
      /\ (s <> latin_fonts <-> k ∈ ASIAN)) fontMap.
Proof. by_evaluation. Qed.

Lemma registry_codes_fonts :
  Forall (fun k => is_Some (fontMap !! k)) registry_codes.
Proof. by_evaluation. Qed.

(** X7: the font table has an entry for exactly the valid codes, so for a
    valid code [getFontFamily] returns the string of its own entry. *)
Theorem fontMap_covers_registry (c : string) :
  (isValidLocaleCode c = true <-> is_Some (fontMap !! c))
  /\ (isValidLocaleCode c = true ->
      exists s, fontMap !! c = Some s /\ getFontFamily c = VString s
                /\ s <> EmptyString).
Proof.
  assert (Hiff : isValidLocaleCode c = true <-> is_Some (fontMap !! c)).
  { split.
    - intros Hc%isValidLocaleCode_elem_of.
      pose proof registry_codes_fonts as Hall.
      rewrite Forall_forall in Hall. apply Hall, Hc.
    - intros [s Hs]. apply (fontMap_entries c s Hs). }
  split; [exact Hiff|].
  intros Hc. apply Hiff in Hc as [s Hs]. exists s.
  split; [exact Hs|]. split; [apply getFontFamily_own; exact Hs|].
  intros ->. pose proof (fontMap_entries_truthy c _ Hs) as Ht. discriminate Ht.
Qed.

Lemma fontMap_covers_registry_witness :
  exists s, fontMap !! "ko" = Some s /\ getFontFamily "ko" = VString s
            /\ s <> EmptyString.
Proof. apply (proj2 (fontMap_covers_registry "ko")). reflexivity. Defined.

(** X8: [getFontFamily] differs from what it returns for the default locale
    exactly for the four Asian codes and for the names of the properties
    inherited from [Object.prototype]; every other string, valid or not,
    gets the fonts of the default locale. *)
Theorem getFontFamily_differs_iff (c : string) :
  getFontFamily c <> getFontFamily DEFAULT_LOCALE
  <-> c ∈ ASIAN \/ c ∈ Object_prototype.
Proof.
  rewrite getFontFamily_default.
  destruct (fontMap !! c) as [s|] eqn:Hs.
  - rewrite (getFontFamily_own c s Hs).
    destruct (fontMap_entries c s Hs) as (_ & Hproto & Hasian).
    split.
    + intros Hne. left. apply Hasian. congruence.
    + intros [Hin|Hin]; [|destruct (Hproto Hin)].
      apply Hasian in Hin. congruence.
  - unfold getFontFamily, logical_or, Object_get. rewrite Hs.
    destruct (decide (c ∈ Object_prototype)) as [Hin|Hnot].
    + rewrite (bool_decide_eq_true_2 _ Hin). simpl.
      split; [auto | discriminate].
    + rewrite (bool_decide_eq_false_2 _ Hnot). simpl.
      split; [intros Hne; destruct (Hne eq_refl)|].
      intros [Hin|Hin]; [|destruct (Hnot Hin)].
      exfalso.
      assert (Hsome : is_Some (fontMap !! c)).
      { pose proof registry_codes_fonts as Hall.
        rewrite Forall_forall in Hall. apply Hall.
        apply isValidLocaleCode_elem_of.
        revert Hin. unfold ASIAN. rewrite !elem_of_cons.
        intros [->|[->|[->|[->|Hnil]]]]; try reflexivity.
        apply not_elem_of_nil in Hnil. destruct Hnil. }
      rewrite Hs in Hsome. destruct Hsome as [? [=]].
Qed.

(** ** Static tables *)

(** X9: the language families split the registry: their codes, put
    together, are the codes of the registry, each once.  The region map has
    one entry for each code of the registry, in the order of the registry,
    with one of three regions, and the codes it places in Asia are those of
    the Asian family and of the Asian batch group. *)
Theorem tables_cover_registry :
  concat LANGUAGE_FAMILIES.*2 ≡ₚ registry_codes
  /\ NoDup (concat LANGUAGE_FAMILIES.*2)
  /\ LOCALE_REGIONS.*1 = registry_codes
  /\ Forall (fun entry => entry.2 ∈ ["AMERICA"; "ASIA"; "EUROPE"]) LOCALE_REGIONS
  /\ Forall (fun entry => entry.2 = "ASIA" <-> entry.1 ∈ ASIAN) LOCALE_REGIONS
  /\ ("ASIAN", ASIAN) ∈ LANGUAGE_FAMILIES.
Proof.
  split; [by_evaluation|]. split; [by_evaluation|]. split; [reflexivity|].
  split; [by_evaluation|]. split; [by_evaluation|].
  by_evaluation.
Qed.

(** X10: in [COMMON_KEYS] no property name and no key occurs twice, and
    every key is "common." followed by its property name in lower case. *)
Theorem COMMON_KEYS_wellformed :
  NoDup COMMON_KEYS.*1
  /\ NoDup COMMON_KEYS.*2
  /\ Forall (fun entry => entry.2 = "common." +:+ lowercase entry.1) COMMON_KEYS.
Proof. split; [by_evaluation|]. split; by_evaluation. Qed.

(** ** Repeated calls of the dropdown *)

Section DropdownCalls.
Variable localeCompare : string -> string -> Z.

Lemma dropdown_calls_run (n : nat) (h : Heap) :
  h !! SUPPORTED_LOCALES_ref = Some SUPPORTED_LOCALES ->
  dropdown_calls localeCompare n h
  = Some (seq (List.length h) n,
          h ++ replicate n (sorted_elements (byEnglishName localeCompare)
                                            SUPPORTED_LOCALES)).
Proof.
  revert h. induction n as [|n IH]; intros h Hreg; simpl.
  - rewrite app_nil_r. reflexivity.
  - rewrite (getLocalesForDropdown_run localeCompare h Hreg).
    cbn [mbind option_bind].
    rewrite (IH _ (registry_kept h _ Hreg)). cbn [mbind option_bind].
    rewrite length_app, Nat.add_1_r, <- app_assoc. reflexivity.
Qed.
End DropdownCalls.

(** X11: [n] calls in a row return [n] different arrays, none of which
    existed before; each holds the sorted copy, also after the later calls;
    every array that was there before the calls is left as it was, and the
    heap has grown by exactly [n] arrays. *)
Theorem dropdown_calls_fresh
    (localeCompare : string -> string -> Z) (n : nat) (h : Heap) :
  h !! SUPPORTED_LOCALES_ref = Some SUPPORTED_LOCALES ->
  exists (rs : list Ref) (h' : Heap),
    dropdown_calls localeCompare n h = Some (rs, h')
    /\ List.length rs = n
    /\ NoDup rs
    /\ Forall (fun r =>
         h !! r = None
         /\ h' !! r = Some (sorted_elements (byEnglishName localeCompare)
                                            SUPPORTED_LOCALES)) rs
    /\ (forall i elems, h !! i = Some elems -> h' !! i = Some elems)
    /\ List.length h' = (List.length h + n)%nat.
Proof.
  intros Hreg. eexists _, _.
  split; [apply dropdown_calls_run; exact Hreg|].
  split; [apply length_seq|]. split; [apply NoDup_seq|].
  split; [|split].
  - apply Forall_forall. intros r Hr. apply elem_of_seq in Hr as [Hlo Hhi].
    split; [apply lookup_ge_None; exact Hlo|].
    rewrite lookup_app_r by exact Hlo.
    apply lookup_replicate_2. lia.
  - intros i elems Hi. apply lookup_app_l_Some. exact Hi.
  - rewrite length_app, length_replicate. reflexivity.
Qed.

Lemma dropdown_calls_fresh_witness :
  exists (rs : list Ref) (h' : Heap),
    dropdown_calls compareBytes 3 module_heap = Some (rs, h')
    /\ NoDup rs
    /\ List.length h' = 4%nat.
Proof.
  destruct (dropdown_calls_fresh compareBytes 3 module_heap eq_refl)
    as (rs & h' & Hrun & _ & Hnd & _ & _ & Hlen).
  exists rs, h'. split; [exact Hrun|]. split; [exact Hnd | exact Hlen].
Defined.

(** ** Sorting what is sorted *)

Section SortedAgain.
Context {A : Type}.
Variable comparefn : A -> A -> Z.

Lemma sorted_elements_id (l : list A) :
  StronglySorted (ascending comparefn) l -> sorted_elements comparefn l = l.
Proof.
  induction 1 as [|x l Hsorted IH Hx]; simpl; [reflexivity|].
  rewrite IH. destruct Hx as [|y l' Hxy _]; simpl; [reflexivity|].
  unfold ascending in Hxy.
  destruct (0 <? comparefn x y) eqn:Hcmp; [|reflexivity].
  apply Z.ltb_lt in Hcmp. lia.
Qed.

Hypothesis comparefn_consistent : consistent comparefn.

Lemma consistent_opposite (a b : A) :
  0 < comparefn a b -> comparefn b a <= 0.
Proof.
  intros H. apply comparefn_consistent in H. lia.
Qed.

Lemma consistent_transitive (a b c : A) :
  comparefn a b <= 0 -> comparefn b c <= 0 -> comparefn a c <= 0.
Proof. apply comparefn_consistent. Qed.

Lemma sorted_elements_idempotent (l : list A) :
  sorted_elements comparefn (sorted_elements comparefn l)
  = sorted_elements comparefn l.
Proof.
  apply sorted_elements_id.
  apply sorted_elements_StronglySorted;
    [exact consistent_opposite | exact consistent_transitive].
Qed.

Lemma strictly_ascending_transitive :
  Transitive (strictly_ascending comparefn).
Proof.
  destruct comparefn_consistent as (Hpos & Hneg & Htrans).
  unfold strictly_ascending. intros a b c Hab Hbc.
  assert (Hac : comparefn a c <= 0) by (apply (Htrans a b c); lia).
  destruct (Z.eq_dec (comparefn a c) 0) as [Hzero|]; [|lia].
  assert (Hca : comparefn c a <= 0).
  { destruct (Z_lt_le_dec 0 (comparefn c a)) as [Hlt|]; [|assumption].
    apply Hpos in Hlt. lia. }
  assert (Hcb : comparefn c b <= 0) by (apply (Htrans c a b); lia).
  apply Hneg in Hbc. lia.
Qed.

(** An array in ascending order that has the elements of an array in
    strictly ascending order is that array. *)
Lemma sorted_permutation_unique (l1 l0 : list A) :
  StronglySorted (ascending comparefn) l1 ->
  StronglySorted (strictly_ascending comparefn) l0 ->
  l1 ≡ₚ l0 ->
  l1 = l0.
Proof.
  destruct comparefn_consistent as (_ & Hneg & _).
  intros H1. revert l0.
  induction H1 as [|y l1 Hs1 IH Hy]; intros l0 H0 Hperm.
  - apply Permutation_nil_l, Hperm.
  - destruct H0 as [|x l0 Hs0 Hx].
    + apply Permutation_nil_r in Hperm. discriminate Hperm.
    + assert (Hyx : y = x).
      { assert (Hin : y ∈ x :: l0) by (rewrite <- Hperm; apply list_elem_of_here).
        apply elem_of_cons in Hin as [Heq|Hin]; [exact Heq|].
        rewrite Forall_forall in Hx. specialize (Hx y Hin).
        unfold strictly_ascending in Hx.
        assert (Hin' : x ∈ y :: l1) by (rewrite Hperm; apply list_elem_of_here).
        apply elem_of_cons in Hin' as [Heq|Hin']; [symmetry; exact Heq|].
        rewrite Forall_forall in Hy. specialize (Hy x Hin').
        unfold ascending in Hy. apply Hneg in Hx. lia. }
      subst y. f_equal. apply IH; [exact Hs0|].
      apply (Permutation_cons_inv Hperm).
Qed.
End SortedAgain.

Lemma byEnglishName_consistent (localeCompare : string -> string -> Z) :
  consistent localeCompare -> consistent (byEnglishName localeCompare).
Proof.
  intros (Hpos & Hneg & Htrans). unfold byEnglishName.
  split; [|split]; intros; eauto.
Qed.

(** X12: for a consistent [localeCompare], sorting the array that
    [getLocalesForDropdown] returned once more, with the comparator of the
    function, changes nothing in the heap. *)
Theorem dropdown_sort_again
    (localeCompare : string -> string -> Z) (h : Heap) :
  consistent localeCompare ->
  h !! SUPPORTED_LOCALES_ref = Some SUPPORTED_LOCALES ->
  exists (r : Ref) (h' : Heap),
    getLocalesForDropdown localeCompare h = Some (r, h')
    /\ Array_sort (byEnglishName localeCompare) r h' = Some (r, h').
Proof.
  intros Hcons Hreg. eexists _, _.
  split; [apply getLocalesForDropdown_run; exact Hreg|].
  rewrite Array_sort_last.
  rewrite (sorted_elements_idempotent _ (byEnglishName_consistent _ Hcons)).
  reflexivity.
Qed.

Lemma compareBytes_consistent : consistent compareBytes.
Proof.
  split; [|split].
  - intros a b. unfold compareBytes. rewrite (String.compare_antisym b a).
    destruct (String.compare a b); simpl; lia.
  - intros a b. unfold compareBytes. rewrite (String.compare_antisym b a).
    destruct (String.compare a b); simpl; lia.
  - exact compareBytes_transitive.
Qed.

Lemma dropdown_sort_again_witness :
  exists (r : Ref) (h' : Heap),
    getLocalesForDropdown compareBytes module_heap = Some (r, h')
    /\ Array_sort (byEnglishName compareBytes) r h' = Some (r, h').
Proof.
  apply (dropdown_sort_again compareBytes module_heap);
    [exact compareBytes_consistent | reflexivity].
Defined.

(** ** The order of the dropdown *)

Lemma StronglySorted_by_key {A B : Type} (f : A -> B) (R : B -> B -> Prop)
    (l : list A) :
  StronglySorted R (List.map f l) ->
  StronglySorted (fun a b => R (f a) (f b)) l.
Proof.
  induction l as [|x l IH]; simpl; intros Hs; [constructor|].
  apply StronglySorted_inv in Hs as [Hs Hx].
  constructor; [apply IH; exact Hs|].
  apply Forall_forall. intros y Hy.
  rewrite Forall_forall in Hx. apply Hx.
  apply list_elem_of_In, in_map, list_elem_of_In, Hy.
Qed.

(** X13: every consistent [localeCompare] that puts the ten English names
    in alphabetical order makes [getLocalesForDropdown] return the records
    in one and the same order: en, fr, de, ja, ko, pt, ru, zh-CN, es,
    zh-TW. *)
Theorem dropdown_order_determined
    (localeCompare : string -> string -> Z) (h : Heap) :
  consistent localeCompare ->
  Sorted (strictly_ascending localeCompare)
    ["English"; "French"; "German"; "Japanese"; "Korean"; "Portuguese";
     "Russian"; "Simplified Chinese"; "Spanish"; "Traditional Chinese"] ->
  h !! SUPPORTED_LOCALES_ref = Some SUPPORTED_LOCALES ->
  exists (r : Ref) (h' : Heap),
    getLocalesForDropdown localeCompare h = Some (r, h')
    /\ List.map code <$> h' !! r
       = Some ["en"; "fr"; "de"; "ja"; "ko"; "pt"; "ru"; "zh-CN"; "es"; "zh-TW"].
Proof.
  intros Hcons Hnames Hreg.
  pose proof (byEnglishName_consistent _ Hcons) as Hrec.
  apply (Sorted_StronglySorted (strictly_ascending_transitive _ Hcons))
    in Hnames.
  set (expected := sorted_elements (byEnglishName compareBytes) SUPPORTED_LOCALES).
  assert (Hexpected : StronglySorted
            (strictly_ascending (byEnglishName localeCompare)) expected).
  { apply (StronglySorted_by_key englishName (strictly_ascending localeCompare)).
    exact Hnames. }
  assert (Hsame : sorted_elements (byEnglishName localeCompare) SUPPORTED_LOCALES
                  = expected).
  { apply (sorted_permutation_unique _ Hrec); [|exact Hexpected|].
    - apply sorted_elements_StronglySorted;
        [exact (consistent_opposite _ Hrec)
        | exact (consistent_transitive _ Hrec)].
    - unfold expected. rewrite !sorted_elements_Permutation. reflexivity. }
  eexists _, _.
  split; [apply getLocalesForDropdown_run; exact Hreg|].
  rewrite lookup_app_r by reflexivity. rewrite Nat.sub_diag.
  rewrite Hsame. reflexivity.
Qed.

Lemma dropdown_order_determined_witness :
  exists (r : Ref) (h' : Heap),
    getLocalesForDropdown compareBytes module_heap = Some (r, h')
    /\ List.map code <$> h' !! r
       = Some ["en"; "fr"; "de"; "ja"; "ko"; "pt"; "ru"; "zh-CN"; "es"; "zh-TW"].
Proof.
  apply (dropdown_order_determined compareBytes module_heap).
  - exact compareBytes_consistent.
  - repeat constructor.
  - reflexivity.
Defined.

(** ** The dropdown and the other lookups *)

(** X14: the codes of the array [getLocalesForDropdown] returns are the
    valid codes, each once, and looking up the code of any of its entries
    with [getLocaleInfo] gives back that entry. *)
Theorem dropdown_entries_lookup
    (localeCompare : string -> string -> Z) (h : Heap) :
  h !! SUPPORTED_LOCALES_ref = Some SUPPORTED_LOCALES ->
  exists (r : Ref) (h' : Heap) (result : list LocaleInfo),
    getLocalesForDropdown localeCompare h = Some (r, h')
    /\ h' !! r = Some result
    /\ List.map code result ≡ₚ registry_codes
    /\ NoDup (List.map code result)
    /\ Forall (fun info =>
         isValidLocaleCode (code info) = true
         /\ getLocaleInfo (code info) = Some info) result.
Proof.
  intros Hreg. eexists _, _, _.
  split; [apply getLocalesForDropdown_run; exact Hreg|].
  split; [rewrite lookup_app_r by reflexivity; rewrite Nat.sub_diag; reflexivity|].
  assert (Hperm : sorted_elements (byEnglishName localeCompare) SUPPORTED_LOCALES
                  ≡ₚ SUPPORTED_LOCALES) by apply sorted_elements_Permutation.
  split; [unfold registry_codes; apply Permutation_map; exact Hperm|].
  split.
  - rewrite (Permutation_map code Hperm). exact registry_codes_NoDup.
  - apply Forall_forall. intros info Hin. rewrite Hperm in Hin.
    assert (Hfound : getLocaleInfo (code info) = Some info)
      by (apply (find_key_NoDup code); [exact registry_codes_NoDup | exact Hin]).
    split; [|exact Hfound].
    apply existsb_find_is_Some. unfold getLocaleInfo in Hfound.
    rewrite Hfound. eauto.
Qed.

Lemma dropdown_entries_lookup_witness :
  exists (r : Ref) (h' : Heap) (result : list LocaleInfo),
    getLocalesForDropdown compareBytes module_heap = Some (r, h')
    /\ h' !! r = Some result
    /\ NoDup (List.map code result).
Proof.
  destruct (dropdown_entries_lookup compareBytes module_heap eq_refl)
    as (r & h' & result & Hrun & Hres & _ & Hnd & _).
  exists r, h', result. split; [exact Hrun|]. split; [exact Hres | exact Hnd].
Defined.


